(** * Rock-paper-scissors (answers/rps/rps.16.cpp)

    A shallow embedding of the strategy-evaluation core of [rps.16.cpp]:
    the [Move] enumeration, the score table built by [scoreMap], the
    pairwise and the batch [score], the [Player] interface with the two
    built-in players [Random] and [TitForTat], the random move generator,
    the match loop [play], the routine [test], and the Python side: the
    converters of [Round], [PlayerWrap] and [py_play].

    Conventions.
    - [int] values are modelled in [Z]: the scores are the table entries
      [-1], [0] and [1], and no arithmetic is done on them.  [unsigned
      char my_pos] is a [Z] as well, and [size_type num_rounds] a [nat].
    - [std::map] is stdpp's [gmap]; [std::vector<Round>] is [list Round],
      [push_back] appends at the end.
    - [boost::random] is not part of the repository: the engine and the
      distribution are the operations of the class [BoostRandom].
    - [assert] is the one of a build without [NDEBUG]: a false condition
      aborts the call.
    - Python objects are the values of [PyObject]; [std::cout] is the text
      written so far. *)

From Stdlib Require Import ZArith String Ascii DecimalString.
From stdpp Require Import base option list countable gmap.

Local Open Scope Z_scope.

(** ** Moves and the score table *)

(** [enum Move { Rock, Paper, Scissors }] *)
Inductive Move : Set :=
  | Rock
  | Paper
  | Scissors.

#[global] Instance Move_eq_dec : EqDecision Move.
Proof. solve_decision. Defined.

(** The enumerators' integer values, which order the keys of the map. *)
Definition Move_to_nat (m : Move) : nat :=
  match m with Rock => 0%nat | Paper => 1%nat | Scissors => 2%nat end.

Definition Move_of_nat (n : nat) : option Move :=
  match n with
  | 0%nat => Some Rock
  | 1%nat => Some Paper
  | 2%nat => Some Scissors
  | _ => None
  end.

#[global] Instance Move_countable : Countable Move.
Proof.
  refine (inj_countable Move_to_nat Move_of_nat _).
  intros []; reflexivity.
Defined.

(** [typedef std::map<Move, std::map<Move, int> > ScoreMap;] *)
Abbreviation ScoreMap := (gmap Move (gmap Move Z)).

(** [scoreMap()]: the table filled on the first call; [m[k] = v] on a
    [std::map] is [<[k:=v]>]. *)
Definition scoreMap : ScoreMap :=
  let smap : ScoreMap := ∅ in
  let rock : gmap Move Z := ∅ in
  let rock := <[Rock := 0]> rock in
  let rock := <[Paper := 1]> rock in
  let rock := <[Scissors := -1]> rock in
  let smap := <[Rock := rock]> smap in
  let paper : gmap Move Z := ∅ in
  let paper := <[Rock := -1]> paper in
  let paper := <[Paper := 0]> paper in
  let paper := <[Scissors := 1]> paper in
  let smap := <[Paper := paper]> smap in
  let scissors : gmap Move Z := ∅ in
  let scissors := <[Rock := 1]> scissors in
  let scissors := <[Paper := -1]> scissors in
  let scissors := <[Scissors := 0]> scissors in
  let smap := <[Scissors := scissors]> smap in
  smap.

(** [struct Round { Move p1, p2; }] *)
Record Round : Set := mkRound { p1 : Move; p2 : Move }.

(** [score(m1, m2)]: [scoreMap().find(m1)->second.find(m2)->second].
    [find] is the partial lookup; dereferencing the iterator is the total
    lookup [!!!], justified by [scoreMap_find] below: no [find] misses. *)
Definition score (m1 m2 : Move) : Z :=
  (scoreMap !!! m1) !!! m2.

(** [score(rounds)], the overload on a sequence of rounds: the loop
    pushes one score per round at the back of [rslt]. *)
Definition score_rounds (rounds : list Round) : list Z :=
  foldl (fun rslt r => rslt ++ [score (p1 r) (p2 r)]) [] rounds.

(** ** Calls and their outcomes *)

(** What a call does: it returns, it stops on a failed [assert], or an
    exception leaves it (an override supplied from Python may raise). *)
Inductive Outcome (A : Type) : Type :=
  | Returned (a : A)
  | Aborted
  | Raised.
Arguments Returned {A} a.
Arguments Aborted {A}.
Arguments Raised {A}.

(** A computation over a state [S]. *)
Definition M (S A : Type) : Type := S -> Outcome (A * S).

#[global] Instance M_ret {S} : MRet (M S) :=
  fun A a s => Returned (a, s).

#[global] Instance M_bind {S} : MBind (M S) :=
  fun A B f c s =>
    match c s with
    | Returned (a, s') => f a s'
    | Aborted => Aborted
    | Raised => Raised
    end.

(** [assert(c)] *)
Definition assert_ {S} (c : bool) : M S unit :=
  fun s => if c then Returned (tt, s) else Aborted.

(** ** The random move generator *)

(** The part of [boost::random] the program uses: the engine [mt19937],
    its construction from a seed, and a draw [dist(rng)] of a
    [uniform_int_distribution<>] built with bounds [(lo, hi)], which
    gives the number drawn and the engine after the draw. *)
Class BoostRandom : Type := {
  mt19937 : Type;
  mt19937_seed : Z -> mt19937;
  uniform_int_distribution : Z * Z -> mt19937 -> Z * mt19937
}.

(** The conversion of a [time_t] to the [int] parameter [seed]. *)
Definition to_int (z : Z) : Z := (z + 2 ^ 31) mod 2 ^ 32 - 2 ^ 31.

(** The [switch] of [RandomMoveGenerator::operator()]. *)
Definition switch_Move (n : Z) : Move :=
  match n with
  | 1 => Rock
  | 2 => Paper
  | 3 => Scissors
  | _ => Scissors
  end.

Section Program.
Context {boost : BoostRandom}.

(** [class RandomMoveGenerator { mt19937 rng_; uniform_int_distribution<> dist_; }] *)
Record RandomMoveGenerator : Type := mkRandomMoveGenerator {
  rng_ : mt19937;
  dist_ : Z * Z
}.

(** [RandomMoveGenerator(int seed) : rng_(seed), dist_(1, 3)] *)
Definition RandomMoveGenerator_new (seed : Z) : RandomMoveGenerator :=
  {| rng_ := mt19937_seed seed; dist_ := (1, 3) |}.

(** [Move operator()()]: the move drawn and the generator after the draw. *)
Definition RandomMoveGenerator_call (g : RandomMoveGenerator)
  : Move * RandomMoveGenerator :=
  let '(n, rng') := uniform_int_distribution (dist_ g) (rng_ g) in
  (switch_Move n, {| rng_ := rng'; dist_ := dist_ g |}).

(** [Host]: the state of whatever supplies further players (the Python
    interpreter behind [PlayerWrap]). *)
Context {Host : Type}.

(** What a player's call may read and change: the static generator [rmg]
    of [randomMove] ([None] until the first call constructs it), the clock
    read by [std::time(0)], and the host's state. *)
Record Env : Type := mkEnv {
  rmg : option RandomMoveGenerator;
  clock : Z;
  host : Host
}.

(** [randomMove()]: [static RandomMoveGenerator rmg(std::time(0)); return rmg();] *)
Definition randomMove : M Env Move :=
  fun e =>
    let g := match rmg e with
             | Some g => g
             | None => RandomMoveGenerator_new (to_int (clock e))
             end in
    let '(m, g') := RandomMoveGenerator_call g in
    Returned (m, {| rmg := Some g'; clock := clock e; host := host e |}).

(** The number the next call of [randomMove] draws. *)
Definition next_draw (e : Env) : Z :=
  let g := match rmg e with
           | Some g => g
           | None => RandomMoveGenerator_new (to_int (clock e))
           end in
  fst (uniform_int_distribution (dist_ g) (rng_ g)).

(** ** Players *)

(** [class Player]: the field [name_] and the virtual [nextMove].  The
    override of a subclass is a function of the object it is called on
    (the object's only field is [name_]), the history and the position. *)
Record Player : Type := mkPlayer {
  name_ : string;
  override : string -> list Round -> Z -> M Env Move
}.

(** [p.nextMove(history, my_pos)], dispatched to the override. *)
Definition nextMove (p : Player) (history : list Round) (my_pos : Z)
  : M Env Move :=
  override p (name_ p) history my_pos.

(** [std::string name() const] *)
Definition name (p : Player) : string := name_ p.

(** [void setName(const std::string& n)] *)
Definition setName (n : string) (p : Player) : Player :=
  {| name_ := n; override := override p |}.

(** [Random::nextMove]: both parameters are unnamed. *)
Definition Random_nextMove (this : string) (_ : list Round) (_ : Z)
  : M Env Move :=
  randomMove.

(** [Random(name)] *)
Definition Random (name : string) : Player :=
  {| name_ := name; override := Random_nextMove |}.

(** [TitForTat::nextMove].  [history.empty()] is [last history = None];
    otherwise [*history.rbegin()] is the last round. *)
Definition TitForTat_nextMove (this : string) (history : list Round)
  (my_pos : Z) : M Env Move :=
  _ ← assert_ ((my_pos =? 0) || (my_pos =? 1));
  match last history with
  | None => randomMove
  | Some r => mret (if my_pos =? 0 then p2 r else p1 r)
  end.

(** [TitForTat(name)] *)
Definition TitForTat (name : string) : Player :=
  {| name_ := name; override := TitForTat_nextMove |}.

(** ** The match *)

(** One call of [nextMove] as [play] makes it: who was called, with which
    history and position, and the move that came back. *)
Record Call : Type := mkCall {
  callee : Player;
  seen : list Round;
  pos : Z;
  answer : Move
}.

(** The state of a run of [play]: the environment of the players and the
    calls of [nextMove] made so far, oldest first. *)
Record Run : Type := mkRun {
  env : Env;
  calls : list Call
}.

(** A call [p.nextMove(history, my_pos)] inside [play], recorded. *)
Definition invoke (p : Player) (history : list Round) (my_pos : Z)
  : M Run Move :=
  fun r =>
    match nextMove p history my_pos (env r) with
    | Returned (m, e') =>
        Returned (m, {| env := e';
                        calls := calls r ++ [mkCall p history my_pos m] |})
    | Aborted => Aborted
    | Raised => Raised
    end.

(** The [for] loop of [play], with [rounds_left] for [num_rounds - i]:
    it returns the history the loop leaves. *)
Fixpoint play_loop (p1 p2 : Player) (rounds_left : nat)
  (history : list Round) : M Run (list Round) :=
  match rounds_left with
  | O => mret history
  | S k =>
      m1 ← invoke p1 history 0;
      m2 ← invoke p2 history 1;
      play_loop p1 p2 k (history ++ [mkRound m1 m2])
  end.

(** [play(p1, p2, num_rounds)]: the history starts empty
    ([history.reserve] sets its capacity only), the loop fills it, and the
    batch score of the whole history is returned. *)
Definition play (p1 p2 : Player) (num_rounds : nat) : M Run (list Z) :=
  history ← play_loop p1 p2 num_rounds [];
  mret (score_rounds history).

End Program.

(** ** Definitions used by the statements *)

(** [m1] beats [m2]: the relation of the game. *)
Inductive beats : Move -> Move -> Prop :=
  | Rock_beats_Scissors : beats Rock Scissors
  | Scissors_beats_Paper : beats Scissors Paper
  | Paper_beats_Rock : beats Paper Rock.

(** The score of one round. *)
Definition score_Round (r : Round) : Z := score (p1 r) (p2 r).

(** The calls a match makes that starts from [history] and plays
    [rounds]: for each round first the first player, then the second, both
    with the rounds before it. *)
Fixpoint calls_of {boost : BoostRandom} {Host : Type}
  (a b : @Player boost Host) (history rounds : list Round)
  : list (@Call boost Host) :=
  match rounds with
  | [] => []
  | r :: rest =>
      mkCall a history 0 (p1 r) :: mkCall b history 1 (p2 r)
        :: calls_of a b (history ++ [r]) rest
  end.

(** The rounds two players add who each repeat the opponent's last move,
    after a round [(x, y)]: [(y, x)], [(x, y)], [(y, x)], ... *)
Fixpoint mirror_rounds (k : nat) (x y : Move) : list Round :=
  match k with
  | O => []
  | S k => mkRound y x :: mirror_rounds k y x
  end.

(** A player supplied from outside that always plays [m]. *)
Definition constant_player {boost : BoostRandom} {Host : Type}
  (name : string) (m : Move) : @Player boost Host :=
  {| name_ := name; override := fun _ _ _ => mret m |}.

(** A player supplied from outside whose every call raises. *)
Definition raising_player {boost : BoostRandom} {Host : Type}
  (name : string) : @Player boost Host :=
  {| name_ := name; override := fun _ _ _ _ => Raised |}.

(** A player supplied from outside that reads its own name: Rock when
    the name is empty, Paper otherwise. *)
Definition named_player {boost : BoostRandom} {Host : Type}
  (name : string) : @Player boost Host :=
  {| name_ := name;
     override := fun this _ _ =>
       mret (match this with EmptyString => Rock | _ => Paper end) |}.

(** A generator for the examples: the engine is a counter, and a draw
    with bounds [(lo, hi)] runs through [lo, lo + 1, ..., hi] in turn. *)
Definition counter_random : BoostRandom := {|
  mt19937 := Z;
  mt19937_seed := fun seed => seed;
  uniform_int_distribution := fun '(lo, hi) g =>
    (lo + g mod (hi - lo + 1), g + 1)
|}.

(** The start of a run in the examples: no generator yet, the clock at
    [0], no host state, no call made. *)
Definition run0 : @Run counter_random unit :=
  {| env := {| rmg := None; clock := 0; host := tt |}; calls := [] |}.

(** ** The test routine *)

(** The text [std::cout << r] writes for an [int]: its decimal digits,
    with a minus sign when it is negative. *)
Definition show_int (z : Z) : string := NilEmpty.string_of_int (Z.to_int z).

(** The line feed ["\n"]. *)
Definition nl : string := String (ascii_of_nat 10) EmptyString.

(** One pass of the loop of [test] over a result [r]: [p1_wins] or
    [p2_wins] goes up by one when [r] is [-1] or [1], and [r] and a line
    feed go to [std::cout]. *)
Definition test_step (st : nat * nat * string) (r : Z) : nat * nat * string :=
  let '(p1_wins, p2_wins, out) := st in
  let '(p1_wins, p2_wins) :=
    if -1 =? r then (S p1_wins, p2_wins)
    else if 1 =? r then (p1_wins, S p2_wins)
    else (p1_wins, p2_wins) in
  (p1_wins, p2_wins, (out ++ show_int r ++ nl)%string).

Section Test.
Context {boost : BoostRandom} {Host : Type}.

(** The state [test] works on: the run of the match and the text written
    to [std::cout] so far. *)
Record Process : Type := mkProcess {
  run : @Run boost Host;
  cout : string
}.

(** [test(num_rounds)]: a match of [TitForTat("t4t")] against
    [Random("random")], the results counted and printed, and the verdict
    returned. *)
Definition test (num_rounds : nat) : M Process string :=
  fun ps =>
    let p1 : @Player boost Host := TitForTat "t4t" in
    let p2 : @Player boost Host := Random "random" in
    match play p1 p2 num_rounds (run ps) with
    | Returned (results, run') =>
        let '(p1_wins, p2_wins, out) :=
          foldl test_step (0%nat, 0%nat, cout ps) results in
        let verdict :=
          if (p2_wins <? p1_wins)%nat
          then ("Player " ++ name p1 ++ " wins!")%string
          else if (p1_wins <? p2_wins)%nat
          then ("Player " ++ name p2 ++ " wins!")%string
          else "It was a tie!"%string in
        Returned (verdict, {| run := run'; cout := out |})
    | Aborted => Aborted
    | Raised => Raised
    end.

End Test.

(** ** The Python side *)

(** The Python objects the converters meet: [None], an [int], an instance
    of the enumeration [rps.Move] registered by [bp::enum_<Move>] (with a
    named value), a tuple and a list. *)
#[warnings="-register-all"]
Inductive PyObject : Type :=
  | PyNone
  | PyInt (z : Z)
  | PyMove (m : Move)
  | PyTuple (items : list PyObject)
  | PyList (items : list PyObject).

(** [PyTuple_Check(obj)] *)
Definition PyTuple_Check (obj : PyObject) : bool :=
  match obj with PyTuple _ => true | _ => false end.

(** [PyTuple_Size(obj)], for a tuple. *)
Definition PyTuple_Size (obj : PyObject) : Z :=
  match obj with PyTuple items => Z.of_nat (length items) | _ => -1 end.

(** [PyTuple_GetItem(obj, i)]: [None] is the null pointer of an index out
    of range. *)
Definition PyTuple_GetItem (obj : PyObject) (i : nat) : option PyObject :=
  match obj with PyTuple items => items !! i | _ => None end.

(** [Round_to_tuple::convert(r)]: [bp::make_tuple(r.p1, r.p2)] *)
Definition Round_to_tuple (r : Round) : PyObject :=
  PyTuple [PyMove (p1 r); PyMove (p2 r)].

(** [Round_from_tuple::checkIsMove(obj)]: [PyObject_IsInstance(obj, rps.Move)] *)
Definition checkIsMove (obj : option PyObject) : bool :=
  match obj with Some (PyMove _) => true | _ => false end.

(** [Round_from_tuple::convertible(obj_ptr)]: [obj_ptr] when it can be
    converted, [None] for the null pointer otherwise. *)
Definition convertible (obj_ptr : PyObject) : option PyObject :=
  if negb (PyTuple_Check obj_ptr) then None
  else if negb (PyTuple_Size obj_ptr =? 2) then None
  else if negb (checkIsMove (PyTuple_GetItem obj_ptr 0)) then None
  else if negb (checkIsMove (PyTuple_GetItem obj_ptr 1)) then None
  else Some obj_ptr.

(** [bp::extract<Move>(obj)]: [None] when the extraction raises. *)
Definition extract_Move (obj : option PyObject) : option Move :=
  match obj with Some (PyMove m) => Some m | _ => None end.

(** [Round_from_tuple::construct(obj_ptr, data)]: the round built in the
    storage, [None] when an extraction raises. *)
Definition construct (obj_ptr : PyObject) : option Round :=
  m1 ← extract_Move (PyTuple_GetItem obj_ptr 0);
  m2 ← extract_Move (PyTuple_GetItem obj_ptr 1);
  Some (mkRound m1 m2).

(** The conversion of a Python object to a [Round] as the registry runs
    the pair pushed by [Round_from_tuple()]: [construct] on what
    [convertible] accepts. *)
Definition Round_from_tuple (obj : PyObject) : option Round :=
  match convertible obj with
  | Some obj_ptr => construct obj_ptr
  | None => None
  end.

(** A Python exception that leaves the call. *)
Definition raise_ {S A : Type} : M S A := fun _ => Raised.

Section Python.
Context {boost : BoostRandom} {Host : Type}.

(** The method [next_move] of the Python object behind a [PlayerWrap]:
    called on the object ([self], of which the name is the only field on
    the C++ side) with the history and the position; [None] when the
    Python class defines no such method. *)
Definition PyMethod : Type :=
  option (string -> PyObject -> PyObject -> M (@Env boost Host) PyObject).

(** [PlayerWrap::nextMove]: the rounds are appended to a Python list,
    [next_move] is called with it and the position, and what it returns is
    converted to a [Move]; calling a method that is not there, and a
    result that is no [Move], raise. *)
Definition PlayerWrap_nextMove (next_move : PyMethod) (this : string)
  (history : list Round) (my_pos : Z) : M (@Env boost Host) Move :=
  let py_hist := foldl (fun l r => l ++ [Round_to_tuple r]) [] history in
  match next_move with
  | None => raise_
  | Some f =>
      f this (PyList py_hist) (PyInt my_pos) ≫= fun res : PyObject =>
      match extract_Move (Some res) return M (@Env boost Host) Move with
      | Some m => mret m
      | None => raise_
      end
  end.

(** [PlayerWrap(name)], with the Python object's method. *)
Definition PlayerWrap (name : string) (next_move : PyMethod)
  : @Player boost Host :=
  {| name_ := name; override := PlayerWrap_nextMove next_move |}.

(** [py_play(p1, p2, num_rounds)]: the scores of [play] appended to a
    Python list. *)
Definition py_play (p1 p2 : @Player boost Host) (num_rounds : nat)
  : M (@Run boost Host) PyObject :=
  scores ← play p1 p2 num_rounds;
  mret (PyList (foldl (fun results score => results ++ [PyInt score])
                  [] scores)).

End Python.

(** A Python [next_move] that plays what the opponent played last, read
    from the tuples of the history, and Rock on an empty history. *)
Definition py_mirror {boost : BoostRandom} {Host : Type}
  : @PyMethod boost Host :=
  Some (fun _ py_hist my_pos =>
          mret (match py_hist with
                | PyList items =>
                    match last items, my_pos with
                    | Some (PyTuple [m1; m2]), PyInt 0 => m2
                    | Some (PyTuple [m1; m2]), _ => m1
                    | _, _ => PyMove Rock
                    end
                | _ => PyNone
                end)).

(** ** Definitions used by the further statements *)

(** The integer value of an enumerator of [Move]. *)
Definition Move_to_Z (m : Move) : Z := Z.of_nat (Move_to_nat m).

(** A round with the two sides exchanged. *)
Definition swap_Round (r : Round) : Round := mkRound (p2 r) (p1 r).

(** The sum of a sequence of scores. *)
Definition total (scores : list Z) : Z := foldr Z.add 0 scores.

(** How often [v] occurs among the scores. *)
Definition occurrences (v : Z) (scores : list Z) : nat :=
  length (filter (fun r => r = v) scores).

(** A score is one of [-1], [0], [1]. *)
Definition is_score (v : Z) : Prop := v = -1 \/ v = 0 \/ v = 1.

(** The first player of each round repeats what the second played in the
    round before. *)
Definition first_mirrors (history : list Round) : Prop :=
  forall (i : nat) (r r' : Round),
    history !! i = Some r -> history !! (S i) = Some r' -> p1 r' = p2 r.

(** The second player of each round repeats what the first played in the
    round before. *)
Definition second_mirrors (history : list Round) : Prop :=
  forall (i : nat) (r r' : Round),
    history !! i = Some r -> history !! (S i) = Some r' -> p2 r' = p1 r.

(** What a run of [play] shows to its caller: the result and the
    environment left behind, without the record of the calls. *)
Definition observe {boost : BoostRandom} {Host : Type} {A : Type}
  (o : Outcome (A * @Run boost Host)) : Outcome (A * @Env boost Host) :=
  match o with
  | Returned (a, s) => Returned (a, env s)
  | Aborted => Aborted
  | Raised => Raised
  end.

(** The text [test] prints for a sequence of results: each one followed
    by a line feed. *)
Definition lines_of (results : list Z) : string :=
  foldr (fun r text => (show_int r ++ nl ++ text)%string) EmptyString results.

(** The built-in players. *)
Inductive builtin {boost : BoostRandom} {Host : Type}
  : @Player boost Host -> Prop :=
  | builtin_Random (n : string) : builtin (Random n)
  | builtin_TitForTat (n : string) : builtin (TitForTat n).

(** ** The score table *)

Lemma scoreMap_find (m1 m2 : Move) :
  exists row, scoreMap !! m1 = Some row /\ row !! m2 = Some (score m1 m2).
Proof.
  destruct m1, m2; eexists; split; vm_compute; reflexivity.
Qed.

Lemma score_table :
  score Rock Rock = 0 /\ score Rock Paper = 1 /\ score Rock Scissors = -1 /\
  score Paper Rock = -1 /\ score Paper Paper = 0 /\ score Paper Scissors = 1 /\
  score Scissors Rock = 1 /\ score Scissors Paper = -1 /\
  score Scissors Scissors = 0.
Proof. repeat split; vm_compute; reflexivity. Qed.

Lemma score_0_iff (m1 m2 : Move) : m1 = m2 <-> score m1 m2 = 0.
Proof.
  destruct score_table as (RR & RP & RS & PR & PP & PS & SR & SP & SS).
  split.
  - intros ->. destruct m2; assumption.
  - destruct m1, m2; intros E; try reflexivity;
      rewrite ?RP, ?RS, ?PR, ?PS, ?SR, ?SP in E; discriminate E.
Qed.

(** C1: the pairwise score is [-1] exactly when [m1] beats [m2], [1]
    exactly when [m2] beats [m1], and [0] exactly when the moves are
    equal, for the cyclic relation Rock beats Scissors, Scissors beats
    Paper, Paper beats Rock; so [score Rock Scissors], [score Scissors
    Paper] and [score Paper Rock] are [-1] and [score m m] is [0]. *)
Theorem score_spec (m1 m2 : Move) :
  (beats m1 m2 <-> score m1 m2 = -1) /\
  (beats m2 m1 <-> score m1 m2 = 1) /\
  (m1 = m2 <-> score m1 m2 = 0) /\
  score Rock Scissors = -1 /\ score Scissors Paper = -1 /\
  score Paper Rock = -1 /\ score m1 m1 = 0.
Proof.
  destruct score_table as (RR & RP & RS & PR & PP & PS & SR & SP & SS).
  repeat split; try assumption.
  - destruct 1; assumption.
  - destruct m1, m2; intros E; try constructor; rewrite ?RR, ?RP, ?PP, ?PS, ?SR, ?SS in E;
      discriminate E.
  - destruct 1; assumption.
  - destruct m1, m2; intros E; try constructor; rewrite ?RR, ?RS, ?PP, ?PR, ?SP, ?SS in E;
      discriminate E.
  - apply score_0_iff.
  - apply score_0_iff.
  - destruct m1; assumption.
Qed.

(** C6: for distinct moves the score changes sign when the moves are
    swapped, and one of the two scores is [-1] and the other [1]: no tie
    between distinct moves. *)
Theorem score_antisymmetric (m1 m2 : Move) (Hne : m1 <> m2) :
  score m1 m2 = - score m2 m1 /\
  ((score m1 m2 = -1 /\ score m2 m1 = 1) \/
   (score m1 m2 = 1 /\ score m2 m1 = -1)).
Proof.
  destruct score_table as (RR & RP & RS & PR & PP & PS & SR & SP & SS).
  destruct m1, m2; try (exfalso; apply Hne; reflexivity);
    rewrite ?RP, ?RS, ?PR, ?PS, ?SR, ?SP; split; try reflexivity;
    first [ left; split; reflexivity | right; split; reflexivity ].
Qed.

(** [score_antisymmetric] at Rock and Paper. *)
Lemma score_antisymmetric_witness :
  Rock <> Paper /\
  score Rock Paper = - score Paper Rock /\
  ((score Rock Paper = -1 /\ score Paper Rock = 1) \/
   (score Rock Paper = 1 /\ score Paper Rock = -1)).
Proof.
  split; [ discriminate | apply (score_antisymmetric Rock Paper); discriminate ].
Defined.

Lemma score_swap (m1 m2 : Move) : score m2 m1 = - score m1 m2.
Proof.
  destruct score_table as (RR & RP & RS & PR & PP & PS & SR & SP & SS).
  destruct m1, m2; rewrite ?RR, ?RP, ?RS, ?PR, ?PP, ?PS, ?SR, ?SP, ?SS; reflexivity.
Qed.

(** ** Batch scoring *)

Lemma score_rounds_foldl (rounds : list Round) (rslt : list Z) :
  foldl (fun rslt r => rslt ++ [score (p1 r) (p2 r)]) rslt rounds
  = rslt ++ map score_Round rounds.
Proof.
  revert rslt. induction rounds as [|r rounds IH]; intros rslt; simpl.
  - symmetry. apply app_nil_r.
  - rewrite IH, <- app_assoc. reflexivity.
Qed.

Lemma score_rounds_map (rounds : list Round) :
  score_rounds rounds = map score_Round rounds.
Proof. unfold score_rounds. apply score_rounds_foldl. Qed.

(** C4: the batch score has the length of its input, and its [i]-th
    entry is the pairwise score of the two moves of the [i]-th round. *)
Theorem score_rounds_spec (rounds : list Round) :
  length (score_rounds rounds) = length rounds /\
  forall i : nat,
    score_rounds rounds !! i
    = (fun r => score (p1 r) (p2 r)) <$> (rounds !! i).
Proof.
  rewrite score_rounds_map. split.
  - apply length_map.
  - intros i. apply list_lookup_fmap.
Qed.

(** ** Players *)

Section Players.
Context {boost : BoostRandom} {Host : Type}.
Implicit Types (e : @Env boost Host) (p : @Player boost Host).

Lemma bind_eq {S A B : Type} (c : M S A) (f : A -> M S B) (s : S) :
  (c ≫= f) s
  = match c s with
    | Returned (a, s') => f a s'
    | Aborted => Aborted
    | Raised => Raised
    end.
Proof. reflexivity. Qed.

Lemma switch_Move_cases (n : Z) :
  switch_Move n
  = if n =? 1 then Rock else if n =? 2 then Paper else Scissors.
Proof.
  destruct n as [|q|q]; try reflexivity.
  destruct q as [[q|q|]|[q|q|]|]; reflexivity.
Qed.

Lemma Move_cases (m : Move) : m = Rock \/ m = Paper \/ m = Scissors.
Proof. destruct m; auto. Qed.

Lemma randomMove_returns e :
  exists e', randomMove e = Returned (switch_Move (next_draw e), e')
             /\ clock e' = clock e /\ host e' = host e.
Proof.
  unfold randomMove, next_draw, RandomMoveGenerator_call.
  destruct (uniform_int_distribution _ _) as [n rng']; simpl.
  eexists; repeat split.
Qed.

Lemma Random_nextMove_eq (n : string) (history : list Round) (my_pos : Z) e :
  nextMove (Random n) history my_pos e = randomMove e.
Proof. reflexivity. Qed.

Lemma TitForTat_nextMove_empty (n : string) (my_pos : Z) e :
  my_pos = 0 \/ my_pos = 1 ->
  nextMove (TitForTat n) [] my_pos e = randomMove e.
Proof.
  intros [-> | ->]; unfold nextMove; simpl; unfold TitForTat_nextMove;
    rewrite bind_eq; simpl; destruct (randomMove e) as [[m e']| |]; reflexivity.
Qed.

Lemma TitForTat_nextMove_last (n : string) (history : list Round) (r : Round)
  (my_pos : Z) e :
  my_pos = 0 \/ my_pos = 1 -> last history = Some r ->
  nextMove (TitForTat n) history my_pos e
  = Returned (if my_pos =? 0 then p2 r else p1 r, e).
Proof.
  intros Hpos Hlast. unfold nextMove; simpl; unfold TitForTat_nextMove.
  rewrite bind_eq, Hlast. destruct Hpos as [-> | ->]; reflexivity.
Qed.

Lemma TitForTat_nextMove_invalid (n : string) (history : list Round)
  (my_pos : Z) e :
  my_pos <> 0 -> my_pos <> 1 ->
  nextMove (TitForTat n) history my_pos e = Aborted.
Proof.
  intros H0 H1. unfold nextMove; simpl; unfold TitForTat_nextMove.
  rewrite bind_eq. unfold assert_.
  destruct (Z.eqb_spec my_pos 0) as [E|_]; [contradiction|].
  destruct (Z.eqb_spec my_pos 1) as [E|_]; [contradiction|].
  reflexivity.
Qed.

(** C10: the switch of the generator sends [1] to [Rock], [2] to [Paper]
    and every other number to [Scissors]; whatever number the distribution
    draws, [randomMove] returns the move of that number, so [Random]'s
    [nextMove] and [TitForTat]'s [nextMove] on an empty history return one
    of the three moves. *)
Theorem randomMove_total :
  (forall n : Z,
     switch_Move n
     = if n =? 1 then Rock else if n =? 2 then Paper else Scissors) /\
  (forall n : Z, n <> 1 -> n <> 2 -> switch_Move n = Scissors) /\
  (forall g : RandomMoveGenerator,
     fst (RandomMoveGenerator_call g)
     = switch_Move (fst (uniform_int_distribution (dist_ g) (rng_ g)))) /\
  forall e, exists m e',
    randomMove e = Returned (m, e') /\
    m = switch_Move (next_draw e) /\
    (m = Rock \/ m = Paper \/ m = Scissors) /\
    (forall (n : string) (history : list Round) (my_pos : Z),
       nextMove (Random n) history my_pos e = Returned (m, e')) /\
    (forall n : string,
       nextMove (TitForTat n) [] 0 e = Returned (m, e') /\
       nextMove (TitForTat n) [] 1 e = Returned (m, e')).
Proof.
  split; [exact switch_Move_cases|]. split.
  { intros n H1 H2. rewrite switch_Move_cases.
    destruct (Z.eqb_spec n 1); [contradiction|].
    destruct (Z.eqb_spec n 2); [contradiction|]. reflexivity. }
  split.
  { intros g. unfold RandomMoveGenerator_call.
    destruct (uniform_int_distribution _ _); reflexivity. }
  intros e. destruct (randomMove_returns e) as (e' & Hr & _).
  exists (switch_Move (next_draw e)), e'.
  split; [exact Hr|]. split; [reflexivity|]. split; [apply Move_cases|]. split.
  - intros n history my_pos. rewrite Random_nextMove_eq. exact Hr.
  - intros n. rewrite !TitForTat_nextMove_empty by auto. auto.
Qed.

(** C5: on a history that is not empty, [TitForTat]'s [nextMove] returns
    the opponent's move of the last round: the second move for position
    [0], the first for position [1]; after a last round (Rock, Paper) that
    is Paper for position [0] and Rock for position [1].  On the empty
    history it returns what [randomMove] returns, one of the three
    moves. *)
Theorem TitForTat_nextMove_spec (n : string) e :
  (forall history : list Round, history <> [] ->
     exists r, last history = Some r /\
       nextMove (TitForTat n) history 0 e = Returned (p2 r, e) /\
       nextMove (TitForTat n) history 1 e = Returned (p1 r, e)) /\
  (forall history : list Round,
     nextMove (TitForTat n) (history ++ [mkRound Rock Paper]) 0 e
     = Returned (Paper, e) /\
     nextMove (TitForTat n) (history ++ [mkRound Rock Paper]) 1 e
     = Returned (Rock, e)) /\
  (forall my_pos : Z, my_pos = 0 \/ my_pos = 1 ->
     nextMove (TitForTat n) [] my_pos e = randomMove e /\
     exists m e', randomMove e = Returned (m, e') /\
                  (m = Rock \/ m = Paper \/ m = Scissors)).
Proof.
  split; [|split].
  - intros history Hne.
    destruct (last history) as [r|] eqn:Hlast.
    + exists r. split; [reflexivity|].
      split; rewrite (TitForTat_nextMove_last n history r) by auto; reflexivity.
    + apply last_None in Hlast. contradiction.
  - intros history.
    split; rewrite (TitForTat_nextMove_last n _ (mkRound Rock Paper));
      auto using last_snoc.
  - intros my_pos Hpos. split; [apply TitForTat_nextMove_empty; exact Hpos|].
    destruct (randomMove_returns e) as (e' & Hr & _).
    eexists _, e'. split; [exact Hr | apply Move_cases].
Qed.

(** C7, as amended: for a position other than [0] and [1], [TitForTat]'s
    [nextMove] stops on its assertion, whatever the history; [Random]'s
    [nextMove] has no assertion, ignores the position and returns a random
    move. *)
Theorem nextMove_invalid_pos (n : string) (history : list Round) (my_pos : Z)
  e (H0 : my_pos <> 0) (H1 : my_pos <> 1) :
  nextMove (TitForTat n) history my_pos e = Aborted /\
  nextMove (Random n) history my_pos e = randomMove e /\
  exists m e', nextMove (Random n) history my_pos e = Returned (m, e').
Proof.
  split; [apply TitForTat_nextMove_invalid; assumption|].
  split; [reflexivity|].
  destruct (randomMove_returns e) as (e' & Hr & _). eauto.
Qed.

(** C9: the name takes no part in the decisions of the built-in players:
    two [Random] players, and two [TitForTat] players, that differ in
    their names only return the same from [nextMove] in every environment;
    [setName] changes the name and leaves the override as it is, so a
    renamed built-in player decides as before. *)
Theorem name_not_used :
  (forall (n1 n2 : string) (history : list Round) (my_pos : Z) e,
     nextMove (Random n1) history my_pos e
     = nextMove (Random n2) history my_pos e) /\
  (forall (n1 n2 : string) (history : list Round) (my_pos : Z) e,
     nextMove (TitForTat n1) history my_pos e
     = nextMove (TitForTat n2) history my_pos e) /\
  (forall (n : string) p,
     name (setName n p) = n /\ override (setName n p) = override p) /\
  (forall n n' : string,
     setName n (Random n' : @Player boost Host) = Random n /\
     setName n (TitForTat n' : @Player boost Host) = TitForTat n).
Proof. repeat split. Qed.

End Players.

(** ** The match *)

Section Match.
Context {boost : BoostRandom} {Host : Type}.
Implicit Types (e : @Env boost Host) (a b : @Player boost Host)
  (s : @Run boost Host).

Lemma invoke_Returned a (history : list Round) (my_pos : Z) s (m : Move) e :
  nextMove a history my_pos (env s) = Returned (m, e) ->
  invoke a history my_pos s
  = Returned (m, {| env := e;
                    calls := calls s ++ [mkCall a history my_pos m] |}).
Proof. intros H. unfold invoke. rewrite H. reflexivity. Qed.

Lemma play_loop_S a b (k : nat) (history : list Round) s :
  play_loop a b (S k) history s
  = match invoke a history 0 s with
    | Returned (m1, s1) =>
        match invoke b history 1 s1 with
        | Returned (m2, s2) => play_loop a b k (history ++ [mkRound m1 m2]) s2
        | Aborted => Aborted
        | Raised => Raised
        end
    | Aborted => Aborted
    | Raised => Raised
    end.
Proof.
  simpl. rewrite bind_eq.
  destruct (invoke a history 0 s) as [[m1 s1]| |]; reflexivity.
Qed.

(** What the loop of [play] has done when it returns. *)
Lemma play_loop_inv a b (k : nat) :
  forall (history : list Round) s (history' : list Round) s',
    play_loop a b k history s = Returned (history', s') ->
    exists rounds,
      history' = history ++ rounds /\
      length rounds = k /\
      calls s' = calls s ++ calls_of a b history rounds.
Proof.
  induction k as [|k IH]; intros history s history' s' H.
  - injection H as <- <-. exists []. simpl. rewrite !app_nil_r. auto.
  - rewrite play_loop_S in H. unfold invoke at 1 in H.
    destruct (nextMove a history 0 (env s)) as [[m1 e1]| |]; try discriminate H.
    unfold invoke at 1 in H. simpl in H.
    destruct (nextMove b history 1 e1) as [[m2 e2]| |]; try discriminate H.
    apply IH in H. destruct H as (rounds & -> & Hlen & Hcalls).
    exists (mkRound m1 m2 :: rounds). split; [|split].
    + rewrite <- app_assoc. reflexivity.
    + simpl. rewrite Hlen. reflexivity.
    + rewrite Hcalls. simpl. rewrite <- !app_assoc. reflexivity.
Qed.

(** The loop of [play] returns when the calls of the players do. *)
Lemma play_loop_returns a b
  (Ha : forall history e, exists m e', nextMove a history 0 e = Returned (m, e'))
  (Hb : forall history e, exists m e', nextMove b history 1 e = Returned (m, e'))
  (k : nat) :
  forall (history : list Round) s, exists history' s',
    play_loop a b k history s = Returned (history', s').
Proof.
  induction k as [|k IH]; intros history s.
  - exists history, s. reflexivity.
  - destruct (Ha history (env s)) as (m1 & e1 & H1).
    rewrite play_loop_S, (invoke_Returned _ _ _ _ _ _ H1).
    destruct (Hb history e1) as (m2 & e2 & H2).
    erewrite invoke_Returned by (simpl; exact H2). apply IH.
Qed.

Lemma calls_of_length a b (rounds history : list Round) :
  length (calls_of a b history rounds) = (2 * length rounds)%nat.
Proof.
  revert history. induction rounds as [|r rounds IH]; intros history; simpl.
  - reflexivity.
  - rewrite IH. lia.
Qed.

Lemma calls_of_lookup a b (rounds : list Round) :
  forall (history : list Round) (i : nat) (r : Round),
    rounds !! i = Some r ->
    calls_of a b history rounds !! (2 * i)%nat
    = Some (mkCall a (history ++ take i rounds) 0 (p1 r)) /\
    calls_of a b history rounds !! (2 * i + 1)%nat
    = Some (mkCall b (history ++ take i rounds) 1 (p2 r)).
Proof.
  induction rounds as [|r0 rounds IH]; intros history i r Hi.
  - discriminate Hi.
  - destruct i as [|i].
    + injection Hi as ->. simpl. rewrite app_nil_r. auto.
    + simpl in Hi. destruct (IH (history ++ [r0]) i r Hi) as [IH1 IH2].
      replace (2 * S i)%nat with (S (S (2 * i))) by lia.
      replace (S (S (2 * i)) + 1)%nat with (S (S (2 * i + 1))) by lia.
      simpl calls_of. simpl take. rewrite <- app_assoc in IH1, IH2.
      split; [exact IH1 | exact IH2].
Qed.

(** C8: a match of no round returns the empty sequence of scores and
    leaves the run as it was: no call of [nextMove] is recorded, and the
    environment of the players is untouched, whoever the players are
    (also players whose every call would raise). *)
Theorem play_zero a b s :
  play a b 0 s = Returned ([], s) /\
  (forall (scores : list Z) s',
     play a b 0 s = Returned (scores, s') ->
     scores = [] /\ calls s' = calls s /\ env s' = env s).
Proof.
  assert (H : play a b 0 s = Returned ([], s)) by reflexivity.
  split; [exact H|]. intros scores s' H'. rewrite H in H'.
  injection H' as <- <-. auto.
Qed.

(** The environments the loop of [play] passes through: before each of
    the two calls of a round and after the last call, with the move each
    call of [nextMove] returned. *)
Lemma play_loop_envs a b (k : nat) :
  forall (history : list Round) s (history' : list Round) s',
    play_loop a b k history s = Returned (history', s') ->
    exists (rounds : list Round) (envs : list (@Env boost Host)),
      history' = history ++ rounds /\
      length envs = (2 * k + 1)%nat /\
      envs !! 0%nat = Some (env s) /\
      envs !! (2 * k)%nat = Some (env s') /\
      forall (i : nat) (r : Round), rounds !! i = Some r ->
        exists e0 e1 e2,
          envs !! (2 * i)%nat = Some e0 /\
          envs !! (2 * i + 1)%nat = Some e1 /\
          envs !! (2 * i + 2)%nat = Some e2 /\
          nextMove a (history ++ take i rounds) 0 e0 = Returned (p1 r, e1) /\
          nextMove b (history ++ take i rounds) 1 e1 = Returned (p2 r, e2).
Proof.
  induction k as [|k IH]; intros history s history' s' H.
  - injection H as <- <-. exists [], [env s]. rewrite app_nil_r.
    repeat split. intros i r Hi. discriminate Hi.
  - rewrite play_loop_S in H. unfold invoke at 1 in H.
    destruct (nextMove a history 0 (env s)) as [[m1 e1]| |] eqn:H1;
      try discriminate H.
    unfold invoke at 1 in H. cbn [env] in H.
    destruct (nextMove b history 1 e1) as [[m2 e2]| |] eqn:H2;
      try discriminate H.
    apply IH in H.
    destruct H as (rounds & envs & -> & Hlen & Hfirst & Hlast & Hall).
    cbn [env] in Hfirst.
    exists (mkRound m1 m2 :: rounds), (env s :: e1 :: envs).
    split; [rewrite <- app_assoc; reflexivity|].
    split; [simpl; rewrite Hlen; lia|].
    split; [reflexivity|].
    split.
    { replace (2 * S k)%nat with (S (S (2 * k))) by lia. exact Hlast. }
    intros i r Hi. destruct i as [|i].
    + injection Hi as <-. exists (env s), e1, e2.
      rewrite app_nil_r. repeat split; assumption.
    + simpl in Hi. destruct (Hall i r Hi) as (x0 & x1 & x2 & E0 & E1 & E2 & Na & Nb).
      exists x0, x1, x2.
      replace (2 * S i)%nat with (S (S (2 * i))) by lia.
      rewrite <- app_assoc in Na, Nb.
      repeat split; assumption.
Qed.

(** C3: whenever [play a b N] returns, it returns [N] scores: the batch
    score of the [N] rounds played, in round order.  In round [i] the
    first player was called with position [0] and then the second with
    position [1], both with the history of the rounds [0 .. i-1] only (so
    without the first player's move of round [i]); the two moves of round
    [i] are what these two calls of [nextMove] returned, the second call
    running in the environment the first left and the next round in the
    environment the second left, from the environment at the start to the
    one [play] leaves; no other call was made.  And [play a b N] does
    return when the calls of the two players return. *)
Theorem play_spec a b (N : nat) s :
  (forall (scores : list Z) s',
     play a b N s = Returned (scores, s') ->
     length scores = N /\
     exists (history : list Round) (envs : list (@Env boost Host)),
       play_loop a b N [] s = Returned (history, s') /\
       scores = score_rounds history /\
       length history = N /\
       length (calls s') = (length (calls s) + 2 * N)%nat /\
       length envs = (2 * N + 1)%nat /\
       envs !! 0%nat = Some (env s) /\
       envs !! (2 * N)%nat = Some (env s') /\
       forall (i : nat) (r : Round), history !! i = Some r ->
         scores !! i = Some (score (p1 r) (p2 r)) /\
         calls s' !! (length (calls s) + 2 * i)%nat
         = Some (mkCall a (take i history) 0 (p1 r)) /\
         calls s' !! (length (calls s) + 2 * i + 1)%nat
         = Some (mkCall b (take i history) 1 (p2 r)) /\
         exists e0 e1 e2,
           envs !! (2 * i)%nat = Some e0 /\
           envs !! (2 * i + 1)%nat = Some e1 /\
           envs !! (2 * i + 2)%nat = Some e2 /\
           nextMove a (take i history) 0 e0 = Returned (p1 r, e1) /\
           nextMove b (take i history) 1 e1 = Returned (p2 r, e2)) /\
  ((forall history e, exists m e', nextMove a history 0 e = Returned (m, e')) ->
   (forall history e, exists m e', nextMove b history 1 e = Returned (m, e')) ->
   exists (scores : list Z) s', play a b N s = Returned (scores, s')).
Proof.
  split.
  - intros scores s' Hplay. unfold play in Hplay. rewrite bind_eq in Hplay.
    destruct (play_loop a b N [] s) as [[history s1]| |] eqn:Hloop;
      try discriminate Hplay.
    injection Hplay as <- <-.
    destruct (play_loop_inv a b N [] s history s1 Hloop)
      as (rounds & Hh & Hlen & Hcalls).
    simpl in Hh. subst rounds.
    destruct (play_loop_envs a b N [] s history s1 Hloop)
      as (rounds & envs & Hh & Helen & Hfirst & Hlast & Hall).
    simpl in Hh. subst rounds.
    split; [rewrite score_rounds_map, length_map; exact Hlen|].
    exists history, envs.
    split; [reflexivity|split; [reflexivity|split; [exact Hlen|split]]].
    { rewrite Hcalls, length_app, calls_of_length, Hlen. reflexivity. }
    split; [exact Helen|]. split; [exact Hfirst|]. split; [exact Hlast|].
    intros i r Hi.
    destruct (calls_of_lookup a b history [] i r Hi) as [C1 C2].
    simpl in C1, C2. split; [|split; [|split]].
    + rewrite score_rounds_map, list_lookup_fmap, Hi. reflexivity.
    + rewrite Hcalls, lookup_app_r by lia.
      replace (length (calls s) + 2 * i - length (calls s))%nat
        with (2 * i)%nat by lia.
      exact C1.
    + rewrite Hcalls, lookup_app_r by lia.
      replace (length (calls s) + 2 * i + 1 - length (calls s))%nat
        with (2 * i + 1)%nat by lia.
      exact C2.
    + destruct (Hall i r Hi) as (e0 & e1 & e2 & E0 & E1 & E2 & Na & Nb).
      simpl in Na, Nb. exists e0, e1, e2. repeat split; assumption.
  - intros Ha Hb.
    destruct (play_loop_returns a b Ha Hb N [] s) as (history & s' & Hloop).
    exists (score_rounds history), s'.
    unfold play. rewrite bind_eq, Hloop. reflexivity.
Qed.

(** *** Two [TitForTat] players *)

Lemma TitForTat_loop (n1 n2 : string) (k : nat) :
  forall (history : list Round) (x y : Move) s,
    last history = Some (mkRound x y) ->
    exists s',
      play_loop (TitForTat n1) (TitForTat n2) k history s
      = Returned (history ++ mirror_rounds k x y, s') /\
      env s' = env s.
Proof.
  induction k as [|k IH]; intros history x y s Hlast.
  - exists s. simpl. rewrite app_nil_r. auto.
  - rewrite play_loop_S.
    erewrite invoke_Returned
      by (apply (TitForTat_nextMove_last n1 history (mkRound x y)); auto).
    erewrite invoke_Returned
      by (apply (TitForTat_nextMove_last n2 history (mkRound x y)); auto).
    simpl.
    edestruct (IH (history ++ [mkRound y x]) y x) as (s' & Hloop & Henv);
      [apply last_snoc|].
    exists s'. rewrite Hloop, <- app_assoc. simpl in Henv. auto.
Qed.

Lemma TitForTat_first_round (n1 n2 : string) (k : nat) s (x y : Move) e1 e2 :
  randomMove (env s) = Returned (x, e1) ->
  randomMove e1 = Returned (y, e2) ->
  exists s',
    play_loop (TitForTat n1) (TitForTat n2) (S k) [] s
    = Returned (mkRound x y :: mirror_rounds k x y, s') /\
    env s' = e2.
Proof.
  intros Hx Hy. rewrite play_loop_S.
  erewrite invoke_Returned
    by (rewrite TitForTat_nextMove_empty by auto; exact Hx).
  erewrite invoke_Returned
    by (rewrite TitForTat_nextMove_empty by auto; exact Hy).
  simpl.
  edestruct (TitForTat_loop n1 n2 k [mkRound x y] x y) as (s' & Hloop & Henv);
    [reflexivity|].
  exists s'. rewrite Hloop. simpl in Henv. auto.
Qed.

(** C2, as amended: in a match of 5 rounds between two [TitForTat]
    players, round [0] holds the two random moves [x] and [y], and in
    every round [i >= 1] each side's move is the opponent's move of round
    [i-1]; the score of round [i] is the opposite of the score of round
    [i-1], so the scores from round [1] on are all [0] exactly when the
    two moves of round [0] are equal. *)
Theorem TitForTat_match (n1 n2 : string) s :
  exists (x y : Move) e1 s' (history : list Round) (scores : list Z),
    randomMove (env s) = Returned (x, e1) /\
    randomMove e1 = Returned (y, env s') /\
    play_loop (TitForTat n1) (TitForTat n2) 5 [] s = Returned (history, s') /\
    play (TitForTat n1) (TitForTat n2) 5 s = Returned (scores, s') /\
    history = [mkRound x y; mkRound y x; mkRound x y; mkRound y x;
               mkRound x y] /\
    scores = [score x y; - score x y; score x y; - score x y; score x y] /\
    (forall (i : nat) (r r' : Round) (c : Z),
       history !! i = Some r -> history !! (S i) = Some r' ->
       scores !! i = Some c ->
       p1 r' = p2 r /\ p2 r' = p1 r /\ scores !! (S i) = Some (- c)) /\
    ((forall i : nat, (1 <= i < 5)%nat -> scores !! i = Some 0) <-> x = y).
Proof.
  destruct (randomMove_returns (env s)) as (e1 & Hx & _).
  destruct (randomMove_returns e1) as (e2 & Hy & _).
  destruct (TitForTat_first_round n1 n2 4 s _ _ _ _ Hx Hy)
    as (s' & Hloop & Henv).
  set (x := switch_Move (next_draw (env s))) in *.
  set (y := switch_Move (next_draw e1)) in *.
  simpl mirror_rounds in Hloop. rewrite <- Henv in Hy.
  exists x, y, e1, s'. eexists. eexists.
  split; [exact Hx|]. split; [exact Hy|]. split; [exact Hloop|].
  split; [unfold play; rewrite bind_eq, Hloop; reflexivity|].
  split; [reflexivity|].
  assert (Hs : score_rounds
                 [mkRound x y; mkRound y x; mkRound x y; mkRound y x;
                  mkRound x y]
               = [score x y; - score x y; score x y; - score x y; score x y]).
  { rewrite score_rounds_map. unfold score_Round. simpl.
    rewrite (score_swap x y). reflexivity. }
  split; [exact Hs|]. rewrite Hs. split.
  - intros i r r' c Hr Hr' Hc.
    do 4 (destruct i as [|i];
          [ injection Hr as <-; injection Hr' as <-; injection Hc as <-;
            repeat split; simpl; f_equal; lia |]).
    destruct i; discriminate Hr'.
  - split.
    + intros Hall. specialize (Hall 2%nat ltac:(lia)). simpl in Hall.
      injection Hall as Hz. apply score_0_iff. exact Hz.
    + intros <- i Hi.
      assert (Hz : score x x = 0) by (apply score_0_iff; reflexivity).
      rewrite Hz.
      destruct i as [|[|[|[|[|i]]]]]; try lia; reflexivity.
Qed.

End Match.

(** ** Runs on the counter generator *)

(** The first moves the counter generator gives are Rock, Paper,
    Scissors, Rock. *)
Example randomMove_counter :
  (m1 ← randomMove; m2 ← randomMove; m3 ← randomMove; m4 ← randomMove;
   mret [m1; m2; m3; m4]) (env run0)
  = Returned ([Rock; Paper; Scissors; Rock],
              {| rmg := Some {| rng_ := 4 : @mt19937 counter_random;
                                dist_ := (1, 3) |};
                 clock := 0; host := tt |}).
Proof. vm_compute. reflexivity. Qed.

(** A player that always plays Rock against one that always plays
    Scissors, for three rounds. *)
Example play_Rock_Scissors :
  exists s', play (constant_player "A" Rock) (constant_player "B" Scissors)
               3 run0 = Returned ([-1; -1; -1], s').
Proof. eexists. vm_compute. reflexivity. Qed.

(** A player whose calls raise makes [play] raise, unless no round is
    played. *)
Example play_raising :
  play (raising_player "A") (Random "B") 1 run0 = Raised /\
  play (raising_player "A") (raising_player "B") 0 run0 = Returned ([], run0).
Proof. split; reflexivity. Qed.

(** Unlike the built-in players, a player supplied from outside may
    decide by its name. *)
Example named_player_uses_name :
  nextMove (named_player "") [] 0 (env run0) = Returned (Rock, env run0) /\
  nextMove (named_player "x") [] 0 (env run0) = Returned (Paper, env run0) /\
  nextMove (setName "x" (named_player "")) [] 0 (env run0)
  = Returned (Paper, env run0).
Proof. repeat split. Qed.

(** C2, the claim as it was stated fails: two [TitForTat] players whose
    round [0] is (Rock, Paper) score [1; -1; 1; -1; 1], so round [1] is no
    tie. *)
Lemma TitForTat_match_not_all_ties :
  (exists s',
     play (TitForTat "a") (TitForTat "b") 5 run0
     = Returned ([1; -1; 1; -1; 1], s')) /\
  ~ (forall (n1 n2 : string) (s : @Run counter_random unit)
       (scores : list Z) s',
       play (TitForTat n1) (TitForTat n2) 5 s = Returned (scores, s') ->
       forall i : nat, (1 <= i < 5)%nat -> scores !! i = Some 0).
Proof.
  assert (H : exists s',
             play (TitForTat "a") (TitForTat "b") 5 run0
             = Returned ([1; -1; 1; -1; 1], s')).
  { edestruct (TitForTat_first_round (boost := counter_random) "a" "b" 4
                 run0 Rock Paper) as (s' & Hloop & _);
      [vm_compute; reflexivity | vm_compute; reflexivity |].
    exists s'. unfold play. rewrite bind_eq, Hloop. reflexivity. }
  split; [exact H|]. intros Hall. destruct H as (s' & H).
  specialize (Hall _ _ _ _ _ H 1%nat ltac:(lia)). discriminate Hall.
Qed.

(** C7, the claim as it was stated fails for [Random]: called with the
    position [2] it returns a move. *)
Lemma Random_nextMove_any_pos :
  (exists e', nextMove (Random "random") [] 2 (env run0)
              = Returned (Rock, e')) /\
  ~ (forall (p : @Player counter_random unit) (history : list Round)
       (my_pos : Z) (e : Env),
       (exists n, p = Random n \/ p = TitForTat n) ->
       my_pos <> 0 -> my_pos <> 1 ->
       nextMove p history my_pos e = Aborted).
Proof.
  assert (H : exists e', nextMove (Random "random") [] 2 (env run0)
                         = Returned (Rock, e')).
  { eexists. vm_compute. reflexivity. }
  split; [exact H|]. intros Hall. destruct H as (e' & H).
  rewrite (Hall (Random "random") [] 2 (env run0)) in H;
    [discriminate H | eauto | lia | lia].
Qed.

(** [nextMove_invalid_pos] at the position [2], after a round (Rock,
    Paper). *)
Lemma nextMove_invalid_pos_witness :
  2 <> 0 /\ 2 <> 1 /\
  nextMove (TitForTat "t4t") [mkRound Rock Paper] 2 (env run0) = Aborted /\
  nextMove (Random "t4t") [mkRound Rock Paper] 2 (env run0)
  = randomMove (env run0) /\
  exists m e',
    nextMove (Random "t4t") [mkRound Rock Paper] 2 (env run0)
    = Returned (m, e').
Proof.
  split; [lia|]. split; [lia|].
  apply (nextMove_invalid_pos "t4t" [mkRound Rock Paper] 2 (env run0)); lia.
Defined.

(** [play_spec] on two runs.  In the match of the player that always
    plays Rock against the one that always plays Scissors, the rounds are
    pinned by what the calls of [nextMove] return: every round is (Rock,
    Scissors), and the environment is left as it was.  And the two
    built-in players' calls return at the positions [play] uses, so their
    match returns. *)
Lemma play_spec_witness :
  (exists s' (history : list Round),
     play (constant_player "A" Rock) (constant_player "B" Scissors) 3 run0
     = Returned ([-1; -1; -1], s') /\
     play_loop (constant_player "A" Rock) (constant_player "B" Scissors)
       3 [] run0 = Returned (history, s') /\
     length history = 3%nat /\
     forall (i : nat) (r : Round),
       history !! i = Some r -> r = mkRound Rock Scissors) /\
  (exists (scores : list Z) s',
     play (TitForTat "t4t") (Random "random") 3 run0 = Returned (scores, s')).
Proof.
  split.
  - destruct play_Rock_Scissors as [s' Hplay]. 
    destruct (proj1 (play_spec (constant_player "A" Rock)
                       (constant_player "B" Scissors) 3 run0) _ _ Hplay)
      as (_ & history & envs & Hloop & _ & Hlen & _ & _ & _ & _ & Hall).
    exists s', history. split; [exact Hplay|]. split; [exact Hloop|].
    split; [exact Hlen|].
    intros i r Hi.
    destruct (Hall i r Hi)
      as (_ & _ & _ & e0 & e1 & e2 & _ & _ & _ & Na & Nb).
    destruct r as [m1 m2]. injection Na as <- _. injection Nb as <- _.
    reflexivity.
  - apply (proj2 (play_spec (TitForTat "t4t") (Random "random") 3 run0)).
    + intros history e. destruct (last history) as [r|] eqn:Hlast.
      * eexists _, _. apply (TitForTat_nextMove_last "t4t" history r); auto.
      * apply last_None in Hlast. subst history.
        destruct (randomMove_returns e) as (e' & Hr & _).
        eexists _, e'. rewrite TitForTat_nextMove_empty by auto. exact Hr.
    + intros history e. destruct (randomMove_returns e) as (e' & Hr & _).
      eexists _, e'. exact Hr.
Defined.

(** * Further properties of the program *)

(** ** The score table, again *)

Lemma score_is_score (m1 m2 : Move) : is_score (score m1 m2).
Proof.
  unfold is_score. destruct score_table as (RR & RP & RS & PR & PP & PS & SR & SP & SS).
  destruct m1, m2; rewrite ?RR, ?RP, ?RS, ?PR, ?PP, ?PS, ?SR, ?SP, ?SS; auto.
Qed.

(** X1: the table [scoreMap] builds has the three moves as its keys, and
    so has each of its rows: both [find]s of [score] hit an entry, for
    every pair of moves, and [score] is that entry. *)
Theorem scoreMap_complete :
  dom scoreMap = ({[Rock; Paper; Scissors]} : gset Move) /\
  (forall (m1 : Move) (row : gmap Move Z),
     scoreMap !! m1 = Some row ->
     dom row = ({[Rock; Paper; Scissors]} : gset Move)) /\
  (forall m1 m2 : Move, exists row,
     scoreMap !! m1 = Some row /\ row !! m2 = Some (score m1 m2)).
Proof.
  split; [vm_compute; reflexivity|]. split.
  - intros m1 row H. destruct m1; vm_compute in H; injection H as <-;
      vm_compute; reflexivity.
  - intros m1 m2. destruct m1, m2; eexists; split; vm_compute; reflexivity.
Qed.

(** X2: every score is [-1], [0] or [1], and the table is the rule on
    the values of the enumerators: the difference of the second and the
    first, plus one, modulo 3, minus one. *)
Theorem score_rule (m1 m2 : Move) :
  is_score (score m1 m2) /\
  score m1 m2 = (Move_to_Z m2 - Move_to_Z m1 + 1) mod 3 - 1.
Proof.
  split; [apply score_is_score|].
  destruct m1, m2; vm_compute; reflexivity.
Qed.

(** ** Batch scoring, again *)

Lemma score_rounds_is_score (rounds : list Round) :
  Forall is_score (score_rounds rounds).
Proof.
  rewrite score_rounds_map. apply Forall_fmap, Forall_forall.
  intros r _. apply score_is_score.
Qed.

(** X3: the batch score of no round is empty, the batch score of two
    sequences of rounds one after the other is the two batch scores one
    after the other, and every entry is [-1], [0] or [1]. *)
Theorem score_rounds_app :
  score_rounds [] = [] /\
  (forall rounds1 rounds2 : list Round,
     score_rounds (rounds1 ++ rounds2)
     = score_rounds rounds1 ++ score_rounds rounds2) /\
  (forall rounds : list Round, Forall is_score (score_rounds rounds)).
Proof.
  split; [reflexivity|]. split.
  - intros rounds1 rounds2. rewrite !score_rounds_map. apply map_app.
  - apply score_rounds_is_score.
Qed.

Lemma total_opp (scores : list Z) : total (map Z.opp scores) = - total scores.
Proof.
  unfold total. induction scores as [|v scores IH]; simpl; [reflexivity|].
  rewrite IH. lia.
Qed.

(** X4: exchanging the two sides of every round turns every score into
    its opposite, and so the sum of the scores. *)
Theorem score_rounds_swap (rounds : list Round) :
  score_rounds (map swap_Round rounds) = map Z.opp (score_rounds rounds) /\
  total (score_rounds (map swap_Round rounds))
  = - total (score_rounds rounds).
Proof.
  assert (H : score_rounds (map swap_Round rounds)
              = map Z.opp (score_rounds rounds)).
  { rewrite !score_rounds_map, !map_map. apply map_ext.
    intros r. unfold score_Round, swap_Round. simpl. apply score_swap. }
  split; [exact H|]. rewrite H. apply total_opp.
Qed.

(** ** The static generator *)

Section Generator.
Context {boost : BoostRandom} {Host : Type}.

(** X20: the switch of the generator pairs the numbers [1], [2], [3] of
    the distribution's range with the three moves one to one: every move
    comes from exactly one number of the range, so no move is favoured
    over another by the switch. *)
Theorem switch_Move_bijective :
  (forall m : Move, exists n : Z,
     1 <= n <= 3 /\ switch_Move n = m /\
     forall n' : Z, 1 <= n' <= 3 -> switch_Move n' = m -> n' = n) /\
  (forall n : Z, 1 <= n <= 3 -> switch_Move n = Rock <-> n = 1) /\
  (forall n : Z, 1 <= n <= 3 -> switch_Move n = Paper <-> n = 2) /\
  (forall n : Z, 1 <= n <= 3 -> switch_Move n = Scissors <-> n = 3).
Proof.
  assert (H : forall n : Z, 1 <= n <= 3 -> n = 1 \/ n = 2 \/ n = 3) by lia.
  split; [|split; [|split]].
  - intros m.
    exists (match m with Rock => 1 | Paper => 2 | Scissors => 3 end).
    split; [destruct m; lia|]. split; [destruct m; reflexivity|].
    intros n' Hn' Hm. destruct (H n' Hn') as [-> | [-> | ->]]; destruct m;
      try reflexivity; discriminate Hm.
  - intros n Hn. destruct (H n Hn) as [-> | [-> | ->]]; split; intros E;
      try reflexivity; try discriminate E.
  - intros n Hn. destruct (H n Hn) as [-> | [-> | ->]]; split; intros E;
      try reflexivity; try discriminate E.
  - intros n Hn. destruct (H n Hn) as [-> | [-> | ->]]; split; intros E;
      try reflexivity; try discriminate E.
Qed.

(** X5: [randomMove] builds its generator once.  A call that finds none
    behaves as a call that finds the generator seeded with the clock and
    the bounds [(1, 3)]; every call leaves a generator with unchanged
    bounds behind and the clock and the host as they were; and with a
    generator in place, neither the move nor the engine left behind
    depends on the clock or on the host. *)
Theorem randomMove_static :
  (forall (c : Z) (h : Host),
     randomMove {| rmg := None; clock := c; host := h |}
     = randomMove {| rmg := Some (RandomMoveGenerator_new (to_int c));
                     clock := c; host := h |} /\
     dist_ (RandomMoveGenerator_new (to_int c)) = (1, 3)) /\
  (forall (g : RandomMoveGenerator) (c c' : Z) (h h' : Host),
     exists (m : Move) (g' : RandomMoveGenerator),
       dist_ g' = dist_ g /\
       randomMove {| rmg := Some g; clock := c; host := h |}
       = Returned (m, {| rmg := Some g'; clock := c; host := h |}) /\
       randomMove {| rmg := Some g; clock := c'; host := h' |}
       = Returned (m, {| rmg := Some g'; clock := c'; host := h' |})) /\
  (forall (e : @Env boost Host), exists (m : Move) (g' : RandomMoveGenerator),
     randomMove e
     = Returned (m, {| rmg := Some g'; clock := clock e; host := host e |})).
Proof.
  split; [|split].
  - intros c h. split; reflexivity.
  - intros g c c' h h'. unfold randomMove, RandomMoveGenerator_call. simpl.
    destruct (uniform_int_distribution (dist_ g) (rng_ g)) as [n rng'].
    eexists _, _. split; [|split]; [|reflexivity|reflexivity]. reflexivity.
  - intros e. unfold randomMove.
    destruct (RandomMoveGenerator_call _) as [m g']. eauto.
Qed.

End Generator.

(** ** The match, again *)

Section MatchMore.
Context {boost : BoostRandom} {Host : Type}.
Implicit Types (e : @Env boost Host) (a b : @Player boost Host)
  (s t : @Run boost Host).

Lemma builtin_returns a (my_pos : Z) :
  builtin a -> my_pos = 0 \/ my_pos = 1 ->
  forall (history : list Round) e,
    exists m e', nextMove a history my_pos e = Returned (m, e').
Proof.
  intros [n|n] Hpos history e.
  - destruct (randomMove_returns e) as (e' & Hr & _). eexists _, e'. exact Hr.
  - destruct (last history) as [r|] eqn:Hlast.
    + eexists _, _. apply (TitForTat_nextMove_last n history r); auto.
    + apply last_None in Hlast. subst history.
      destruct (randomMove_returns e) as (e' & Hr & _).
      eexists _, e'. rewrite TitForTat_nextMove_empty by exact Hpos. exact Hr.
Qed.

Lemma play_Returned_inv a b (N : nat) s (scores : list Z) s' :
  play a b N s = Returned (scores, s') ->
  exists history : list Round,
    play_loop a b N [] s = Returned (history, s') /\
    scores = score_rounds history /\ length history = N.
Proof.
  intros Hplay. unfold play in Hplay. rewrite bind_eq in Hplay.
  destruct (play_loop a b N [] s) as [[history s1]| |] eqn:Hloop;
    try discriminate Hplay.
  injection Hplay as <- <-.
  destruct (play_loop_inv a b N [] s history s1 Hloop) as (rounds & Hh & Hlen & _).
  simpl in Hh. subst rounds. eauto.
Qed.

Lemma play_of_loop a b (N : nat) s :
  play a b N s
  = match play_loop a b N [] s with
    | Returned (history, s') => Returned (score_rounds history, s')
    | Aborted => Aborted
    | Raised => Raised
    end.
Proof.
  unfold play. rewrite bind_eq.
  destruct (play_loop a b N [] s) as [[history s']| |]; reflexivity.
Qed.

(** X6: a match between built-in players always returns, with one score
    per round: at the positions [0] and [1] that [play] passes, neither
    the assertion of [TitForTat] fails nor anything raises. *)
Theorem builtin_play_returns a b (N : nat) s
  (Ha : builtin a) (Hb : builtin b) :
  exists (scores : list Z) s',
    play a b N s = Returned (scores, s') /\ length scores = N.
Proof.
  destruct (play_loop_returns a b
              (builtin_returns a 0 Ha (or_introl eq_refl))
              (builtin_returns b 1 Hb (or_intror eq_refl)) N [] s)
    as (history & s' & Hloop).
  exists (score_rounds history), s'. split.
  - rewrite play_of_loop, Hloop. reflexivity.
  - destruct (play_loop_inv a b N [] s history s' Hloop) as (rounds & Hh & Hlen & _).
    simpl in Hh. subst rounds. rewrite score_rounds_map, length_map. exact Hlen.
Qed.

Lemma play_loop_add a b (N K : nat) :
  forall (history : list Round) s,
    play_loop a b (N + K) history s
    = (play_loop a b N history ≫= play_loop a b K) s.
Proof.
  induction N as [|N IH]; intros history s.
  - reflexivity.
  - change (S N + K)%nat with (S (N + K)).
    rewrite bind_eq, !play_loop_S.
    destruct (invoke a history 0 s) as [[m1 s1]| |]; try reflexivity.
    destruct (invoke b history 1 s1) as [[m2 s2]| |]; try reflexivity.
    rewrite IH, bind_eq. reflexivity.
Qed.

(** X7: a match of [N + K] rounds is a match of [N] rounds followed by
    [K] more rounds from the history and the state it left; so when the
    longer match returns, the shorter one returns too, and its scores are
    the first [N] scores of the longer one. *)
Theorem play_add a b (N K : nat) s :
  play_loop a b (N + K) [] s
  = (play_loop a b N [] ≫= play_loop a b K) s /\
  forall (scores : list Z) s',
    play a b (N + K) s = Returned (scores, s') ->
    exists s1, play a b N s = Returned (take N scores, s1).
Proof.
  split; [apply play_loop_add|].
  intros scores s' Hplay.
  apply play_Returned_inv in Hplay. destruct Hplay as (history & Hloop & -> & _).
  rewrite play_loop_add, bind_eq in Hloop.
  destruct (play_loop a b N [] s) as [[h1 s1]| |] eqn:H1; try discriminate Hloop.
  destruct (play_loop_inv a b N [] s h1 s1 H1) as (r1 & Hh1 & Hlen1 & _).
  destruct (play_loop_inv a b K h1 s1 history s' Hloop) as (r2 & Hh & _).
  simpl in Hh1. subst r1 history.
  exists s1. rewrite play_of_loop, H1, !score_rounds_map, fmap_app.
  rewrite take_app_length' by (rewrite length_fmap; symmetry; exact Hlen1).
  reflexivity.
Qed.

(** X8: a call that fails ends the match with the same failure, in
    whatever round it happens: after [N] rounds that went well, an
    assertion failure or an exception in the first player's call, or in
    the second player's call after the first player's move, is the
    outcome of every longer match. *)
Theorem play_fails a b (N K : nat) s (history : list Round) s1
  (Hloop : play_loop a b N [] s = Returned (history, s1)) :
  (nextMove a history 0 (env s1) = Raised ->
   play a b (N + S K) s = Raised) /\
  (nextMove a history 0 (env s1) = Aborted ->
   play a b (N + S K) s = Aborted) /\
  (forall (m : Move) e,
     nextMove a history 0 (env s1) = Returned (m, e) ->
     (nextMove b history 1 e = Raised -> play a b (N + S K) s = Raised) /\
     (nextMove b history 1 e = Aborted -> play a b (N + S K) s = Aborted)).
Proof.
  assert (Hstep : play a b (N + S K) s
                  = match play_loop a b (S K) history s1 with
                    | Returned (h, s') => Returned (score_rounds h, s')
                    | Aborted => Aborted
                    | Raised => Raised
                    end).
  { rewrite play_of_loop, play_loop_add, bind_eq, Hloop. reflexivity. }
  rewrite Hstep, play_loop_S. unfold invoke at 1 3 5 7.
  split; [|split].
  - intros ->. reflexivity.
  - intros ->. reflexivity.
  - intros m e ->. unfold invoke. simpl.
    split; intros ->; reflexivity.
Qed.

(** X9: every score [play] returns is [-1], [0] or [1]. *)
Theorem play_scores_range a b (N : nat) s (scores : list Z) s'
  (Hplay : play a b N s = Returned (scores, s')) :
  Forall is_score scores.
Proof.
  apply play_Returned_inv in Hplay. destruct Hplay as (history & _ & -> & _).
  apply score_rounds_is_score.
Qed.

End MatchMore.

(** ** [TitForTat] in a match *)

Section Mirror.
Context {boost : BoostRandom} {Host : Type}.
Implicit Types (e : @Env boost Host) (a b : @Player boost Host)
  (s t : @Run boost Host).

Lemma lookup_snoc_cases (h : list Round) (x : Round) (i : nat) (r r' : Round) :
  (h ++ [x]) !! i = Some r -> (h ++ [x]) !! (S i) = Some r' ->
  (h !! i = Some r /\ h !! (S i) = Some r') \/
  (last h = Some r /\ r' = x).
Proof.
  intros Hi HSi.
  destruct (decide (S i < length h)%nat) as [Hlt|Hge].
  - left. rewrite lookup_app_l in Hi by lia. rewrite lookup_app_l in HSi by lia.
    auto.
  - right. assert (Hlen : S i = length h).
    { apply lookup_lt_Some in HSi. rewrite length_app in HSi. simpl in HSi. lia. }
    rewrite lookup_app_l in Hi by lia.
    rewrite lookup_app_r in HSi by lia.
    replace (S i - length h)%nat with 0%nat in HSi by lia.
    injection HSi as <-. split; [|reflexivity].
    rewrite last_lookup. replace (pred (length h)) with i by lia. exact Hi.
Qed.

Lemma play_loop_S_inv a b (k : nat) (h : list Round) s (h' : list Round) s' :
  play_loop a b (S k) h s = Returned (h', s') ->
  exists (m1 m2 : Move) e1 e2 s2,
    nextMove a h 0 (env s) = Returned (m1, e1) /\
    nextMove b h 1 e1 = Returned (m2, e2) /\
    env s2 = e2 /\
    play_loop a b k (h ++ [mkRound m1 m2]) s2 = Returned (h', s').
Proof.
  intros Hloop. rewrite play_loop_S in Hloop. unfold invoke at 1 in Hloop.
  destruct (nextMove a h 0 (env s)) as [[m1 e1]| |] eqn:H1;
    try discriminate Hloop.
  unfold invoke at 1 in Hloop. cbn [env] in Hloop.
  destruct (nextMove b h 1 e1) as [[m2 e2]| |] eqn:H2; try discriminate Hloop.
  exists m1, m2, e1, e2. eexists. split; [reflexivity|]. split; [exact H2|].
  split; [|exact Hloop]. reflexivity.
Qed.

Lemma first_mirrors_loop (n : string) b (k : nat) :
  forall (h : list Round) s (h' : list Round) s',
    play_loop (TitForTat n) b k h s = Returned (h', s') ->
    first_mirrors h -> first_mirrors h'.
Proof.
  induction k as [|k IH]; intros h s h' s' Hloop Hh.
  - injection Hloop as <- <-. exact Hh.
  - apply play_loop_S_inv in Hloop.
    destruct Hloop as (m1 & m2 & e1 & e2 & s2 & H1 & H2 & _ & Hloop).
    apply IH in Hloop; [exact Hloop|].
    intros i r r' Hi HSi.
    destruct (lookup_snoc_cases h _ i r r' Hi HSi) as [[Hi' HSi']|[Hlast ->]].
    + exact (Hh i r r' Hi' HSi').
    + rewrite (TitForTat_nextMove_last n h r 0) in H1 by auto.
      injection H1 as <- _. reflexivity.
Qed.

Lemma second_mirrors_loop (n : string) a (k : nat) :
  forall (h : list Round) s (h' : list Round) s',
    play_loop a (TitForTat n) k h s = Returned (h', s') ->
    second_mirrors h -> second_mirrors h'.
Proof.
  induction k as [|k IH]; intros h s h' s' Hloop Hh.
  - injection Hloop as <- <-. exact Hh.
  - apply play_loop_S_inv in Hloop.
    destruct Hloop as (m1 & m2 & e1 & e2 & s2 & H1 & H2 & _ & Hloop).
    apply IH in Hloop; [exact Hloop|].
    intros i r r' Hi HSi.
    destruct (lookup_snoc_cases h _ i r r' Hi HSi) as [[Hi' HSi']|[Hlast ->]].
    + exact (Hh i r r' Hi' HSi').
    + rewrite (TitForTat_nextMove_last n h r 1) in H2 by auto.
      injection H2 as <- _. reflexivity.
Qed.

(** X10: against any opponent, [TitForTat] repeats the opponent: when
    the match returns, in every round after the first the move of
    [TitForTat] is the move of the other player in the round before,
    whether [TitForTat] plays first or second. *)
Theorem TitForTat_mirrors (n : string) b (N : nat) s :
  (forall (history : list Round) s',
     play_loop (TitForTat n) b N [] s = Returned (history, s') ->
     forall (i : nat) (r r' : Round),
       history !! i = Some r -> history !! (S i) = Some r' -> p1 r' = p2 r) /\
  (forall (history : list Round) s',
     play_loop b (TitForTat n) N [] s = Returned (history, s') ->
     forall (i : nat) (r r' : Round),
       history !! i = Some r -> history !! (S i) = Some r' -> p2 r' = p1 r).
Proof.
  split; intros history s' Hloop.
  - apply (first_mirrors_loop n b N [] s history s' Hloop).
    intros i r r' Hi. discriminate Hi.
  - apply (second_mirrors_loop n b N [] s history s' Hloop).
    intros i r r' Hi. discriminate Hi.
Qed.

Lemma total_mirror_rounds (k : nat) :
  forall x y : Move,
    total (score_rounds (mirror_rounds k x y))
    = if Nat.even k then 0 else score y x.
Proof.
  induction k as [|k IH]; intros x y; [reflexivity|].
  specialize (IH y x). rewrite score_rounds_map in IH |- *.
  change (mirror_rounds (S k) x y) with (mkRound y x :: mirror_rounds k y x).
  change (total (map score_Round (mkRound y x :: mirror_rounds k y x)))
    with (score y x + total (map score_Round (mirror_rounds k y x))).
  rewrite IH, Nat.even_succ, <- Nat.negb_even.
  destruct (Nat.even k); simpl; [lia|].
  rewrite (score_swap y x). lia.
Qed.

(** X11: a match of any number of rounds between two [TitForTat]
    players draws two random moves [x] and [y] for its first round and
    none after; its rounds are [(x, y)], [(y, x)], [(x, y)], ...; and the
    scores add up to the score of the first round when the number of
    rounds is odd and to [0] when it is even: neither player ever leads by
    more than one round. *)
Theorem TitForTat_match_any (n1 n2 : string) (k : nat) s :
  exists (x y : Move) e1 s' (scores : list Z),
    randomMove (env s) = Returned (x, e1) /\
    randomMove e1 = Returned (y, env s') /\
    play_loop (TitForTat n1) (TitForTat n2) (S k) [] s
    = Returned (mkRound x y :: mirror_rounds k x y, s') /\
    play (TitForTat n1) (TitForTat n2) (S k) s = Returned (scores, s') /\
    total scores = (if Nat.even k then score x y else 0) /\
    is_score (total scores).
Proof.
  destruct (randomMove_returns (env s)) as (e1 & Hx & _).
  destruct (randomMove_returns e1) as (e2 & Hy & _).
  destruct (TitForTat_first_round n1 n2 k s _ _ _ _ Hx Hy)
    as (s' & Hloop & Henv).
  set (x := switch_Move (next_draw (env s))) in *.
  set (y := switch_Move (next_draw e1)) in *.
  rewrite <- Henv in Hy.
  exists x, y, e1, s', (score_rounds (mkRound x y :: mirror_rounds k x y)).
  split; [exact Hx|]. split; [exact Hy|]. split; [exact Hloop|].
  split; [unfold play; rewrite bind_eq, Hloop; reflexivity|].
  assert (Ht : total (score_rounds (mkRound x y :: mirror_rounds k x y))
               = if Nat.even k then score x y else 0).
  { change (mkRound x y :: mirror_rounds k x y)
      with ([mkRound x y] ++ mirror_rounds k x y).
    rewrite score_rounds_map, map_app, <- !score_rounds_map.
    unfold total. rewrite foldr_app. fold (total (score_rounds (mirror_rounds k x y))).
    rewrite total_mirror_rounds, score_rounds_map. unfold score_Round. simpl.
    destruct (Nat.even k); [lia|]. rewrite (score_swap x y). lia. }
  split; [exact Ht|]. rewrite Ht.
  destruct (Nat.even k); [apply score_is_score | right; left; reflexivity].
Qed.

Lemma play_loop_ext a a' b b'
  (Ha : forall (h : list Round) e, nextMove a h 0 e = nextMove a' h 0 e)
  (Hb : forall (h : list Round) e, nextMove b h 1 e = nextMove b' h 1 e)
  (k : nat) :
  forall (h : list Round) s t, env s = env t ->
    observe (play_loop a b k h s) = observe (play_loop a' b' k h t).
Proof.
  induction k as [|k IH]; intros h s t Henv.
  - simpl. unfold mret, M_ret. simpl. rewrite Henv. reflexivity.
  - rewrite !play_loop_S. unfold invoke at 1 3.
    rewrite Henv, Ha.
    destruct (nextMove a' h 0 (env t)) as [[m1 e1]| |]; try reflexivity.
    unfold invoke at 1 2. simpl. rewrite Hb.
    destruct (nextMove b' h 1 e1) as [[m2 e2]| |]; try reflexivity.
    apply IH. reflexivity.
Qed.

(** X12: renaming built-in players changes nothing a caller of [play]
    can see: the scores and the environment left behind are those of the
    match between the players under their old names. *)
Theorem play_setName a b (n1 n2 : string) (N : nat) s
  (Ha : builtin a) (Hb : builtin b) :
  observe (play (setName n1 a) (setName n2 b) N s) = observe (play a b N s).
Proof.
  rewrite !play_of_loop.
  assert (H : observe (play_loop (setName n1 a) (setName n2 b) N [] s)
              = observe (play_loop a b N [] s)).
  { apply play_loop_ext; [| |reflexivity].
    - intros h e. destruct Ha; reflexivity.
    - intros h e. destruct Hb; reflexivity. }
  destruct (play_loop (setName n1 a) (setName n2 b) N [] s) as [[h1 s1]| |],
           (play_loop a b N [] s) as [[h2 s2]| |];
    simpl in H |- *; try discriminate H; try reflexivity.
  injection H as -> ->. reflexivity.
Qed.

End Mirror.

(** ** The test routine *)

Lemma string_app_assoc (s1 s2 s3 : string) :
  ((s1 ++ s2) ++ s3 = s1 ++ (s2 ++ s3))%string.
Proof.
  induction s1 as [|c s1 IH]; [reflexivity|].
  change (String c ((s1 ++ s2) ++ s3) = String c (s1 ++ (s2 ++ s3)))%string.
  f_equal. exact IH.
Qed.

Lemma string_app_nil_r (s1 : string) : (s1 ++ "" = s1)%string.
Proof.
  induction s1 as [|c s1 IH]; [reflexivity|].
  change (String c (s1 ++ "") = String c s1)%string. f_equal. exact IH.
Qed.

Lemma occurrences_cons (v r : Z) (results : list Z) :
  occurrences v (r :: results)
  = ((if (v =? r)%Z then 1 else 0) + occurrences v results)%nat.
Proof.
  unfold occurrences. rewrite filter_cons.
  destruct (decide (r = v)) as [->|Hne].
  - rewrite Z.eqb_refl. reflexivity.
  - destruct (Z.eqb_spec v r) as [E|_]; [congruence|reflexivity].
Qed.

Lemma test_step_eq (p1_wins p2_wins : nat) (out : string) (r : Z) :
  test_step (p1_wins, p2_wins, out) r
  = ((p1_wins + (if (-1 =? r)%Z then 1 else 0))%nat,
     (p2_wins + (if (1 =? r)%Z then 1 else 0))%nat,
     (out ++ show_int r ++ nl)%string).
Proof.
  unfold test_step.
  destruct (Z.eqb_spec (-1) r) as [<-|H1].
  - simpl. f_equal. f_equal; lia.
  - destruct (Z.eqb_spec 1 r) as [<-|H2]; f_equal; f_equal; lia.
Qed.

(** The loop of [test]: the two counters grow by the numbers of [-1]s and
    of [1]s, and the output by one line per result. *)
Lemma test_loop (results : list Z) :
  forall (p1_wins p2_wins : nat) (out : string),
    foldl test_step (p1_wins, p2_wins, out) results
    = ((p1_wins + occurrences (-1) results)%nat,
       (p2_wins + occurrences 1 results)%nat,
       (out ++ lines_of results)%string).
Proof.
  induction results as [|r results IH]; intros p1_wins p2_wins out.
  - simpl. rewrite string_app_nil_r, !Nat.add_0_r. reflexivity.
  - change (foldl test_step (p1_wins, p2_wins, out) (r :: results))
      with (foldl test_step (test_step (p1_wins, p2_wins, out) r) results).
    rewrite test_step_eq, IH, !occurrences_cons.
    change (lines_of (r :: results))
      with (show_int r ++ nl ++ lines_of results)%string.
    rewrite !string_app_assoc. f_equal. f_equal; lia.
Qed.

Section TestRoutine.
Context {boost : BoostRandom} {Host : Type}.
Implicit Types (ps : @Process boost Host).

Lemma test_eq (n : nat) ps (scores : list Z) (s' : @Run boost Host) :
  play (TitForTat "t4t") (Random "random") n (run ps) = Returned (scores, s') ->
  test n ps
  = Returned
      (if (occurrences 1 scores <? occurrences (-1) scores)%nat
       then "Player t4t wins!"%string
       else if (occurrences (-1) scores <? occurrences 1 scores)%nat
       then "Player random wins!"%string
       else "It was a tie!"%string,
       {| run := s'; cout := (cout ps ++ lines_of scores)%string |}).
Proof.
  intros Hplay. unfold test. cbv zeta. rewrite Hplay, test_loop. reflexivity.
Qed.

Lemma test_play_returns (n : nat) ps :
  exists (scores : list Z) (s' : @Run boost Host),
    play (TitForTat "t4t") (Random "random") n (run ps) = Returned (scores, s')
    /\ length scores = n /\ Forall is_score scores.
Proof.
  destruct (play_loop_returns (TitForTat "t4t") (Random "random")
              (builtin_returns _ 0 (builtin_TitForTat "t4t") (or_introl eq_refl))
              (builtin_returns _ 1 (builtin_Random "random") (or_intror eq_refl))
              n [] (run ps))
    as (history & s' & Hloop).
  exists (score_rounds history), s'. split; [|split].
  - rewrite play_of_loop, Hloop. reflexivity.
  - destruct (play_loop_inv _ _ n [] _ history s' Hloop) as (rounds & Hh & Hlen & _).
    simpl in Hh. subst rounds. rewrite score_rounds_map, length_map. exact Hlen.
  - apply score_rounds_is_score.
Qed.

(** X13: [test] always returns.  It plays the match of [TitForTat] named
    t4t against [Random] named random, and writes to [std::cout], after
    what was there, one line per round in round order: the score of the
    round, which is [-1], [0] or [1]. *)
Theorem test_prints (n : nat) ps :
  exists (verdict : string) (scores : list Z) ps',
    test n ps = Returned (verdict, ps') /\
    play (TitForTat "t4t") (Random "random") n (run ps)
    = Returned (scores, run ps') /\
    length scores = n /\ Forall is_score scores /\
    cout ps' = (cout ps ++ lines_of scores)%string.
Proof.
  destruct (test_play_returns n ps) as (scores & s' & Hplay & Hlen & Hrange).
  eexists _, scores, _. split; [apply (test_eq n ps scores s' Hplay)|].
  simpl. auto.
Qed.

(** X14: the verdict of [test] names t4t exactly when more rounds scored
    [-1] than [1], names random exactly when more rounds scored [1] than
    [-1], and is a tie exactly when the two numbers are equal. *)
Theorem test_verdict (n : nat) ps :
  exists (verdict : string) (scores : list Z) ps',
    test n ps = Returned (verdict, ps') /\
    play (TitForTat "t4t") (Random "random") n (run ps)
    = Returned (scores, run ps') /\
    (verdict = "Player t4t wins!"%string
     <-> (occurrences 1 scores < occurrences (-1) scores)%nat) /\
    (verdict = "Player random wins!"%string
     <-> (occurrences (-1) scores < occurrences 1 scores)%nat) /\
    (verdict = "It was a tie!"%string
     <-> occurrences (-1) scores = occurrences 1 scores).
Proof.
  destruct (test_play_returns n ps) as (scores & s' & Hplay & _).
  eexists _, scores, _. split; [apply (test_eq n ps scores s' Hplay)|].
  split; [exact Hplay|].
  destruct (Nat.ltb_spec (occurrences 1 scores) (occurrences (-1) scores)).
  { repeat split; intros; try discriminate; try reflexivity; lia. }
  destruct (Nat.ltb_spec (occurrences (-1) scores) (occurrences 1 scores)).
  { repeat split; intros; try discriminate; try reflexivity; lia. }
  repeat split; intros; try discriminate; try reflexivity; lia.
Qed.

(** X15: [test(0)] plays no round: the verdict is a tie, nothing is
    written, and the state is as it was. *)
Theorem test_zero ps :
  test 0 ps = Returned ("It was a tie!"%string, ps).
Proof.
  rewrite (test_eq 0 ps [] (run ps)) by reflexivity.
  destruct ps as [s out]. simpl. rewrite string_app_nil_r. reflexivity.
Qed.

End TestRoutine.

(** ** The Python side *)

Lemma convertible_Some (obj o : PyObject) :
  convertible obj = Some o ->
  o = obj /\ exists m1 m2 : Move, obj = PyTuple [PyMove m1; PyMove m2].
Proof.
  destruct obj as [|z|m|items|items]; try discriminate.
  destruct items as [|i0 [|i1 [|i2 rest]]]; try discriminate.
  - destruct i0; try discriminate. destruct i1; try discriminate.
    intros H. injection H as <-. eauto.
  - unfold convertible.
    change (PyTuple_Check (PyTuple (i0 :: i1 :: i2 :: rest))) with true.
    cbv [negb].
    destruct (Z.eqb_spec (PyTuple_Size (PyTuple (i0 :: i1 :: i2 :: rest))) 2)
      as [Hsize|_]; [|discriminate].
    unfold PyTuple_Size in Hsize. simpl length in Hsize. lia.
Qed.

Lemma Round_from_to_tuple (r : Round) :
  Round_from_tuple (Round_to_tuple r) = Some r.
Proof. destruct r. reflexivity. Qed.

(** X16: a round converted to Python and back is the round it was:
    [convertible] accepts the tuple [Round_to_tuple] makes, and
    [construct] builds the round again; and whatever Python object
    converts to a round is the tuple of that round. *)
Theorem Round_tuple_round_trip :
  (forall r : Round,
     convertible (Round_to_tuple r) = Some (Round_to_tuple r) /\
     construct (Round_to_tuple r) = Some r /\
     Round_from_tuple (Round_to_tuple r) = Some r) /\
  (forall (obj : PyObject) (r : Round),
     Round_from_tuple obj = Some r -> Round_to_tuple r = obj).
Proof.
  split.
  - intros [m1 m2]. repeat split.
  - intros obj r H. unfold Round_from_tuple in H.
    destruct (convertible obj) as [o|] eqn:Hc; [|discriminate].
    apply convertible_Some in Hc. destruct Hc as (-> & m1 & m2 & ->).
    injection H as <-. reflexivity.
Qed.

(** X17: [convertible] accepts a tuple of exactly two moves and nothing
    else: an object that is no tuple, a tuple that has not two items, and
    a tuple with an item that is no move get the null pointer.  What it
    accepts it returns unchanged, and [construct] does not raise on it. *)
Theorem convertible_exact (obj : PyObject) :
  (convertible obj = Some obj \/ convertible obj = None) /\
  (convertible obj = Some obj
   <-> exists m1 m2 : Move, obj = PyTuple [PyMove m1; PyMove m2]) /\
  (PyTuple_Check obj = false -> convertible obj = None) /\
  (PyTuple_Size obj <> 2 -> convertible obj = None) /\
  (forall i : nat, (i < 2)%nat -> checkIsMove (PyTuple_GetItem obj i) = false ->
     convertible obj = None) /\
  (convertible obj = Some obj -> exists r : Round, construct obj = Some r).
Proof.
  assert (Himg : forall m1 m2 : Move,
             convertible (PyTuple [PyMove m1; PyMove m2])
             = Some (PyTuple [PyMove m1; PyMove m2])) by reflexivity.
  split; [|split; [|split; [|split; [|split]]]].
  - destruct (convertible obj) as [o|] eqn:Hc; [|auto].
    apply convertible_Some in Hc. destruct Hc as (-> & _). auto.
  - split.
    + intros Hc. apply convertible_Some in Hc. tauto.
    + intros (m1 & m2 & ->). apply Himg.
  - intros Hc. unfold convertible. rewrite Hc. reflexivity.
  - intros Hsize. unfold convertible.
    destruct (PyTuple_Check obj); [|reflexivity]. simpl.
    destruct (Z.eqb_spec (PyTuple_Size obj) 2); [contradiction|reflexivity].
  - intros i Hi Hitem.
    destruct (convertible obj) as [o|] eqn:Hc; [|reflexivity].
    apply convertible_Some in Hc. destruct Hc as (_ & m1 & m2 & ->).
    destruct i as [|[|i]]; [discriminate Hitem|discriminate Hitem|lia].
  - intros Hc. apply convertible_Some in Hc. destruct Hc as (_ & m1 & m2 & ->).
    exists (mkRound m1 m2). reflexivity.
Qed.

Lemma py_hist_map (history : list Round) (l : list PyObject) :
  foldl (fun l r => l ++ [Round_to_tuple r]) l history
  = l ++ map Round_to_tuple history.
Proof.
  revert l. induction history as [|r history IH]; intros l; simpl.
  - symmetry. apply app_nil_r.
  - rewrite IH, <- app_assoc. reflexivity.
Qed.

Section PythonSide.
Context {boost : BoostRandom} {Host : Type}.
Implicit Types (e : @Env boost Host) (a b : @Player boost Host)
  (s : @Run boost Host).

(** X18: a [PlayerWrap] hands its Python method the history as a list
    with one tuple per round, in round order, which converts back to the
    history, and the position as an [int].  The move the method returns
    is the move of [nextMove], with the environment the method left; a
    result that is no move raises, a failure of the method is the failure
    of [nextMove], and so is a method that is not there. *)
Theorem PlayerWrap_nextMove_spec (n : string) (history : list Round)
  (my_pos : Z) e :
  nextMove (PlayerWrap n None) history my_pos e = Raised /\
  mapM Round_from_tuple (map Round_to_tuple history) = Some history /\
  length (map Round_to_tuple history) = length history /\
  forall f : string -> PyObject -> PyObject -> M (@Env boost Host) PyObject,
    nextMove (PlayerWrap n (Some f)) history my_pos e
    = match f n (PyList (map Round_to_tuple history)) (PyInt my_pos) e with
      | Returned (PyMove m, e') => Returned (m, e')
      | Returned (_, _) => Raised
      | Aborted => Aborted
      | Raised => Raised
      end.
Proof.
  split; [reflexivity|]. split; [|split].
  - apply mapM_fmap_Some. exact Round_from_to_tuple.
  - apply length_map.
  - intros f. unfold nextMove, PlayerWrap, PlayerWrap_nextMove. simpl.
    rewrite py_hist_map, bind_eq. simpl.
    destruct (f n (PyList (map Round_to_tuple history)) (PyInt my_pos) e)
      as [[res e']| |]; try reflexivity.
    destruct res; reflexivity.
Qed.

Lemma py_scores_map (scores : list Z) (l : list PyObject) :
  foldl (fun results score => results ++ [PyInt score]) l scores
  = l ++ map PyInt scores.
Proof.
  revert l. induction scores as [|v scores IH]; intros l; simpl.
  - symmetry. apply app_nil_r.
  - rewrite IH, <- app_assoc. reflexivity.
Qed.

(** X19: [py_play] fails as [play] fails, and when [play] returns it
    returns a Python list with the scores of [play] as [int]s, in round
    order: one for each round, each [-1], [0] or [1]. *)
Theorem py_play_spec a b (N : nat) s :
  py_play a b N s
  = match play a b N s with
    | Returned (scores, s') => Returned (PyList (map PyInt scores), s')
    | Aborted => Aborted
    | Raised => Raised
    end /\
  forall (obj : PyObject) s',
    py_play a b N s = Returned (obj, s') ->
    exists scores : list Z,
      play a b N s = Returned (scores, s') /\
      obj = PyList (map PyInt scores) /\
      length scores = N /\ Forall is_score scores.
Proof.
  assert (H : py_play a b N s
              = match play a b N s with
                | Returned (scores, s') =>
                    Returned (PyList (map PyInt scores), s')
                | Aborted => Aborted
                | Raised => Raised
                end).
  { unfold py_play. rewrite bind_eq.
    destruct (play a b N s) as [[scores s']| |]; try reflexivity.
    unfold mret, M_ret. rewrite py_scores_map. reflexivity. }
  split; [exact H|]. intros obj s' Hpy. rewrite H in Hpy.
  destruct (play a b N s) as [[scores s1]| |] eqn:Hplay; try discriminate Hpy.
  injection Hpy as <- <-. exists scores. split; [reflexivity|].
  split; [reflexivity|].
  apply play_Returned_inv in Hplay. destruct Hplay as (history & _ & -> & Hlen).
  split; [rewrite score_rounds_map, length_map; exact Hlen|].
  apply score_rounds_is_score.
Qed.

End PythonSide.

(** ** Further runs on the counter generator *)

(** A [PlayerWrap] with the Python method [py_mirror] against a player
    that always plays Paper. *)
Example play_py_mirror :
  observe (play (PlayerWrap "py" py_mirror) (constant_player "B" Paper)
             3 run0)
  = Returned ([1; 0; 0], env run0).
Proof. vm_compute. reflexivity. Qed.

(** [builtin_play_returns] for the players of [test]. *)
Lemma builtin_play_returns_witness :
  exists (scores : list Z) s',
    play (TitForTat "t4t") (Random "random") 3 run0 = Returned (scores, s') /\
    length scores = 3%nat.
Proof.
  apply (builtin_play_returns (TitForTat "t4t") (Random "random") 3 run0).
  - apply builtin_TitForTat.
  - apply builtin_Random.
Defined.

(** [play_fails] before the first round, for a first player whose call
    raises. *)
Lemma play_fails_witness :
  play_loop (raising_player "A") (Random "B") 0 [] run0 = Returned ([], run0) /\
  nextMove (raising_player "A") [] 0 (env run0) = Raised /\
  play (raising_player "A") (Random "B") (0 + 1) run0 = Raised.
Proof.
  split; [reflexivity|]. split; [reflexivity|].
  apply (proj1 (play_fails (raising_player "A") (Random "B") 0 0 run0 [] run0
                  eq_refl)).
  reflexivity.
Defined.

(** [play_scores_range] for the match of the player that always plays
    Rock against the one that always plays Scissors. *)
Lemma play_scores_range_witness :
  exists s',
    play (constant_player "A" Rock) (constant_player "B" Scissors) 3 run0
    = Returned ([-1; -1; -1], s') /\
    Forall is_score [-1; -1; -1].
Proof.
  destruct play_Rock_Scissors as [s' H]. exists s'. split; [exact H|].
  exact (play_scores_range _ _ _ _ _ _ H).
Defined.

(** [play_setName] for the players of [test]. *)
Lemma play_setName_witness :
  observe (play (setName "a" (TitForTat "t4t")) (setName "b" (Random "random"))
             3 run0)
  = observe (play (TitForTat "t4t") (Random "random") 3 run0).
Proof.
  apply (play_setName (TitForTat "t4t") (Random "random") "a" "b" 3 run0).
  - apply builtin_TitForTat.
  - apply builtin_Random.
Defined.
